(** * dogbot web front-end: the [Notice] component and the [Guilds] view

    A shallow embedding of [web/src/components/Notice.js] and
    [web/src/views/Guilds.js], with the properties of the two components
    stated and proved over it. *)

From stdpp Require Import base option list strings gmap.

Local Open Scope string_scope.

(** ** JavaScript completions

    An expression either yields a value or throws.  The only exception the
    modelled code can raise by itself is the [TypeError] of a property read
    on [undefined]. *)

Inductive completion (A : Type) : Type :=
  | Normal (a : A)
  | TypeError.
Arguments Normal {A} a.
Arguments TypeError {A}.

#[global] Instance completion_ret : MRet completion := λ A a, Normal a.

#[global] Instance completion_bind : MBind completion := λ A B k c,
  match c with
  | Normal a => k a
  | TypeError => TypeError
  end.

(** * components/Notice.js *)

Module Notice.

(** What a prop can hold.  A prop that is not passed reads as
    [undefined].  Strings are the intended selectors of [mood]; the other
    values are kept because a property read converts whatever it is given
    to a property key: [null] and the booleans are what conditional props
    evaluate to, and an array converts to the strings of its elements
    joined by commas. *)
#[warnings="-register-all"]
Inductive value : Type :=
  | VUndefined
  | VNull
  | VBoolean (b : bool)
  | VString (s : string)
  | VArray (a : list value).

(** The props object handed to the interpolations. *)
Abbreviation props := (gmap string value).

(** Reading a property of the props object: an absent key is [undefined]. *)
Definition get_prop (p : props) (k : string) : value :=
  default VUndefined (p !! k).

(** [ToPropertyKey] on the values above.  For an array it is
    [Array.prototype.join]: the elements converted in turn, [undefined] and
    [null] giving the empty string, with a comma between them. *)
Fixpoint to_key (v : value) : string :=
  match v with
  | VUndefined => "undefined"
  | VNull => "null"
  | VBoolean b => if b then "true" else "false"
  | VString s => s
  | VArray a =>
      String.concat ","
        (map (λ x, match x with
                   | VUndefined | VNull => ""
                   | _ => to_key x
                   end) a)
  end.

(** [const MOODS = { default: [...], danger: [...], success: [...] }]:
    the own properties of the object literal, each an array of two
    strings. *)
Definition MOODS : gmap string (list string) :=
  <["default" := ["hsl(220, 100%, 85%)"; "hsl(220, 100%, 95%)"] ]>
  (<["danger" := ["hsl(0, 100%, 85%)"; "hsl(0, 100%, 95%)"] ]>
  (<["success" := ["hsl(120, 100%, 75%)"; "hsl(120, 100%, 95%)"] ]> ∅)).

(** An object literal inherits from [Object.prototype].  These are the
    property names ECMAScript defines there (19.1.3 and Annex B.2.2); each
    is bound to a function, except [__proto__], an accessor that returns
    [Object.prototype] itself.  None of these values has an index
    property. *)
Definition Object_prototype : list string :=
  [ "constructor"; "hasOwnProperty"; "isPrototypeOf"; "propertyIsEnumerable";
    "toLocaleString"; "toString"; "valueOf"; "__proto__";
    "__defineGetter__"; "__defineSetter__"; "__lookupGetter__";
    "__lookupSetter__" ].

(** The result of [MOODS[key]]. *)
Inductive member : Type :=
  | Own (arr : list string)   (* an entry of the literal *)
  | Inherited                 (* found on the prototype chain *)
  | Undefined.                (* no such property *)

Definition MOODS_get (key : string) : member :=
  match MOODS !! key with
  | Some arr => Own arr
  | None => if bool_decide (key ∈ Object_prototype) then Inherited else Undefined
  end.

(** The value an interpolation returns to styled-components. *)
Inductive css_value : Type :=
  | CUndefined
  | CString (s : string).

(** [m[i]]: an array read out of range and an index read on a function or
    on [Object.prototype] give [undefined]; a read on [undefined] throws. *)
Definition index (m : member) (i : nat) : completion css_value :=
  match m with
  | Own arr => Normal (from_option CString CUndefined (arr !! i))
  | Inherited => Normal CUndefined
  | Undefined => TypeError
  end.

(** [({ mood = 'default' })]: the default applies exactly when the
    property reads as [undefined]. *)
Definition mood_of (p : props) : value :=
  match get_prop p "mood" with
  | VUndefined => VString "default"
  | v => v
  end.

(** [({ mood = 'default' }) => MOODS[mood][0]] *)
Definition border (p : props) : completion css_value :=
  index (MOODS_get (to_key (mood_of p))) 0.

(** [({ mood = 'default' }) => MOODS[mood][1]] *)
Definition background (p : props) : completion css_value :=
  index (MOODS_get (to_key (mood_of p))) 1.

(** styled-components writes an interpolation that evaluates to
    [undefined] as the empty string. *)
Definition css_text (v : css_value) : string :=
  match v with
  | CUndefined => ""
  | CString s => s
  end.

Definition nl : string := String (Ascii.ascii_of_nat 10) "".

(** The tagged template of [Notice]: the static chunks of the literal with
    the two interpolations applied to the props in between. *)
Definition Notice (p : props) : completion string :=
  b ← border p;
  g ← background p;
  Normal (nl +:+ "  padding: 0.5em 1em;" +:+ nl
          +:+ "  border: solid 1px " +:+ css_text b +:+ ";" +:+ nl
          +:+ "  background: " +:+ css_text g +:+ ";" +:+ nl
          +:+ "  border-radius: 0.15rem;" +:+ nl
          +:+ "  margin: 1rem 0;" +:+ nl).

(** The three selectors of the spec's enumeration. *)
Definition enumerated (s : string) : Prop :=
  s = "default" ∨ s = "danger" ∨ s = "success".

#[global] Instance enumerated_dec (s : string) : Decision (enumerated s).
Proof. unfold enumerated. apply _. Defined.

End Notice.

(** * views/Guilds.js *)

Module Guilds.

(** A guild object as the API delivers it.  The view reads [id] only and
    hands the whole object on to the [Guild] component; [rest] holds the
    properties it never looks at. *)
Record guild : Type := {
  id : string;
  rest : gmap string string;
}.

(** What [this.state.guilds] can hold: the initial [null], or whatever the
    promise of [API.get] was fulfilled with.  The endpoint answers with a
    JSON array of guilds; [null] and [undefined] are the two values the
    test [guilds == null] accepts. *)
Inductive value : Type :=
  | VNull
  | VUndefined
  | VArray (a : list guild).

(** [this.state].  [guilds] is its only key, so the object [{ guilds }]
    passed to [setState] is a whole state. *)
Record state : Type := {
  guilds : value;
}.

(** ** React elements

    What JSX builds: an element has a type (a host tag, the fragment, or a
    component), an optional key, a props object, and children.  An array
    among the children, as [{guildNodes}], stands for its elements in
    order. *)

Inductive type : Type :=
  | Host (tag : string)
  | Fragment
  | Link        (* react-router-dom *)
  | Guild.      (* ./Guild *)

Inductive prop : Type :=
  | PString (s : string)
  | PGuild (g : guild).

#[warnings="-register-all"]
Inductive element : Type :=
  | Text (s : string)
  | Element (ty : type) (key : option string)
            (props : gmap string prop) (children : list element).

Definition host (tag : string) (props : gmap string prop)
    (children : list element) : element :=
  Element (Host tag) None props children.

(** The callback of [guilds.map]. *)
Definition guildNode (g : guild) : element :=
  Element (Host "li") (Some (id g)) ∅
    [ Element Link None {[ "to" := PString ("/guild/" +:+ id g) ]}
        [ Element Guild None {[ "guild" := PGuild g ]} [] ] ].

(** The value [render] assigns to [content].  The first branch is the
    test [guilds == null], which [null] and [undefined] pass; the second is
    [guilds.length !== 0]. *)
Definition content (v : value) : element :=
  match v with
  | VNull | VUndefined =>
      host "p" ∅ [ Text "Loading servers..." ]
  | VArray a =>
      if negb (length a =? 0)%nat then
        let guildNodes := guildNode <$> a in
        Element Fragment None ∅
          [ host "p" ∅ [ Text "Click on a server below to edit its configuration:" ];
            host "ul" {[ "className" := PString "guild-list" ]} guildNodes ]
      else
        host "p" ∅ [ Text "No servers." ]
  end.

Definition render (s : state) : element :=
  host "div" {[ "id" := PString "guilds" ]}
    [ host "h2" ∅ [ Text "Servers" ];
      content (guilds s) ].

(** ** The asynchronous method

    An [async] method runs until its next [await] and is resumed with the
    value the awaited promise is fulfilled with.  When the promise is
    rejected the [await] throws; with no [try] around it the rest of the
    body is abandoned. *)

Inductive async (A : Type) : Type :=
  | Return (a : A)
  | AwaitGet (path : string) (k : value → async A)   (* await API.get(path) *)
  | SetState (partial : state) (k : async A).         (* this.setState(partial) *)
Arguments Return {A} a.
Arguments AwaitGet {A} path k.
Arguments SetState {A} partial k.

Definition componentDidMount : async unit :=
  AwaitGet "/api/guilds" (λ guilds,
  SetState {| guilds := guilds |}
  (Return tt)).

(** The part of [componentDidMount] after its [await]. *)
Definition resume : value → async unit :=
  λ guilds, SetState {| guilds := guilds |} (Return tt).

(** ** A mounted instance on the event loop

    Besides [this.state], an instance carries the suspended rest of
    [componentDidMount] while its fetch is in flight, and three logs that
    only record what happened: the paths requested from the API, the number
    of [setState] calls, and the element each call of [render] returned. *)

Record instance : Type := {
  this_state : state;
  mounted : bool;
  pending : option (value → async unit);
  requests : list string;
  updates : nat;
  frames : list element;
}.

(** [state = { guilds: null }] *)
Definition initial : instance := {|
  this_state := {| guilds := VNull |};
  mounted := false;
  pending := None;
  requests := [];
  updates := 0;
  frames := [];
|}.

(** Runs a method body up to its next [await] or to its end. *)
Fixpoint exec (body : async unit) (i : instance) : instance :=
  match body with
  | Return _ => i
  | AwaitGet path k =>
      {| this_state := this_state i; mounted := mounted i;
         pending := Some k;
         requests := requests i ++ [path];
         updates := updates i; frames := frames i |}
  | SetState partial k =>
      exec k {| this_state := partial; mounted := mounted i;
                pending := pending i; requests := requests i;
                updates := S (updates i); frames := frames i |}
  end.

(** What can happen to an instance.  React calls [componentDidMount] once,
    after the instance has been mounted; the promise of a fetch is settled
    at most once, fulfilled or rejected; [render] is called whenever React
    decides to.  An event that cannot occur in the current situation (a
    second mount, a settlement with no fetch in flight) leaves the instance
    as it is. *)
Inductive event : Type :=
  | Mount
  | Resolve (v : value)
  | Reject
  | Render.

Definition clear_pending (i : instance) : instance :=
  {| this_state := this_state i; mounted := mounted i; pending := None;
     requests := requests i; updates := updates i; frames := frames i |}.

Definition step (e : event) (i : instance) : instance :=
  match e with
  | Mount =>
      if mounted i then i
      else exec componentDidMount
             {| this_state := this_state i; mounted := true;
                pending := pending i; requests := requests i;
                updates := updates i; frames := frames i |}
  | Resolve v =>
      match pending i with
      | Some k => exec (k v) (clear_pending i)
      | None => i
      end
  | Reject => clear_pending i
  | Render =>
      {| this_state := this_state i; mounted := mounted i;
         pending := pending i; requests := requests i;
         updates := updates i;
         frames := frames i ++ [render (this_state i)] |}
  end.

Fixpoint run (evs : list event) (i : instance) : instance :=
  match evs with
  | [] => i
  | e :: evs' => run evs' (step e i)
  end.

(** The view the instance currently displays. *)
Definition view (i : instance) : element := render (this_state i).

(** The three situations [render] tells apart, named as in the spec's data
    model: [guilds == null] is [Loading], an array is [Loaded]. *)
Inductive ViewState : Type :=
  | Loading
  | Loaded (gs : list guild).

Definition view_state (s : state) : ViewState :=
  match guilds s with
  | VNull | VUndefined => Loading
  | VArray a => Loaded a
  end.

(** ** Reading a rendered tree *)

Definition children_of (e : element) : list element :=
  match e with
  | Text _ => []
  | Element _ _ _ ch => ch
  end.

Definition type_of (e : element) : option type :=
  match e with
  | Text _ => None
  | Element ty _ _ _ => Some ty
  end.

Definition key_of (e : element) : option string :=
  match e with
  | Text _ => None
  | Element _ k _ _ => k
  end.

Definition prop_of (e : element) (name : string) : option prop :=
  match e with
  | Text _ => None
  | Element _ _ ps _ => ps !! name
  end.

Definition is_li (e : element) : bool :=
  match e with
  | Element (Host tag) _ _ _ => bool_decide (tag = "li")
  | _ => false
  end.

(** All [li] elements of a tree, in document order. *)
Fixpoint list_items (e : element) : list element :=
  (if is_li e then [e] else []) ++
  match e with
  | Text _ => []
  | Element _ _ _ ch => concat (map list_items ch)
  end.

(** The text of a tree, as [textContent] would give it for host
    elements. *)
Fixpoint text_content (e : element) : string :=
  match e with
  | Text s => s
  | Element _ _ _ ch => String.concat "" (map text_content ch)
  end.

(** ** The life of an instance

    Where an instance stands with respect to its fetch, with the move each
    event makes, and what each phase says about the fields of the
    instance. *)

Inductive phase : Type :=
  | Fresh                 (* constructed, not mounted yet *)
  | Fetching              (* mounted, the fetch is in flight *)
  | Failed                (* the fetch was rejected *)
  | Settled (v : value).  (* the fetch was fulfilled with [v] *)

Definition phase_step (e : event) (ph : phase) : phase :=
  match ph, e with
  | Fresh, Mount => Fetching
  | Fetching, Resolve v => Settled v
  | Fetching, Reject => Failed
  | _, _ => ph
  end.

Definition phase_run (evs : list event) (ph : phase) : phase :=
  foldl (λ ph e, phase_step e ph) ph evs.

(** The frame [render] returns while [guilds] is still [null]. *)
Definition loading_frame : element :=
  host "div" {[ "id" := PString "guilds" ]}
    [ host "h2" ∅ [ Text "Servers" ];
      host "p" ∅ [ Text "Loading servers..." ] ].

Definition in_phase (ph : phase) (i : instance) : Prop :=
  match ph with
  | Fresh =>
      mounted i = false ∧ pending i = None
      ∧ this_state i = {| guilds := VNull |}
      ∧ requests i = [] ∧ updates i = 0
      ∧ Forall (λ f, f = loading_frame) (frames i)
  | Fetching =>
      mounted i = true ∧ pending i = Some resume
      ∧ this_state i = {| guilds := VNull |}
      ∧ requests i = ["/api/guilds"] ∧ updates i = 0
      ∧ Forall (λ f, f = loading_frame) (frames i)
  | Failed =>
      mounted i = true ∧ pending i = None
      ∧ this_state i = {| guilds := VNull |}
      ∧ requests i = ["/api/guilds"] ∧ updates i = 0
      ∧ Forall (λ f, f = loading_frame) (frames i)
  | Settled v =>
      mounted i = true ∧ pending i = None
      ∧ this_state i = {| guilds := v |}
      ∧ requests i = ["/api/guilds"] ∧ updates i = 1
  end.

(** The targets of the [Link] elements of a tree, in document order. *)
Definition link_target (e : element) : list string :=
  match e with
  | Element Link _ ps _ =>
      match ps !! "to" with
      | Some (PString t) => [t]
      | _ => []
      end
  | _ => []
  end.

Fixpoint links (e : element) : list string :=
  link_target e ++
  match e with
  | Text _ => []
  | Element _ _ _ ch => concat (map links ch)
  end.

(** What the log of frames looks like in each phase: loading frames only
    until the fetch is fulfilled, then copies of the frame of the fetched
    value after them. *)
Definition frames_shape (ph : phase) (i : instance) : Prop :=
  match ph with
  | Settled v =>
      ∃ n m, frames i =
        (replicate n loading_frame ++ replicate m (render {| guilds := v |}))%list
  | _ => ∃ n, frames i = replicate n loading_frame
  end.

End Guilds.

(** * Properties of [Notice] *)

Section NoticeProperties.
Import Notice.

Lemma MOODS_default :
  MOODS !! "default" = Some ["hsl(220, 100%, 85%)"; "hsl(220, 100%, 95%)"].
Proof. reflexivity. Qed.

Lemma MOODS_danger :
  MOODS !! "danger" = Some ["hsl(0, 100%, 85%)"; "hsl(0, 100%, 95%)"].
Proof. reflexivity. Qed.

Lemma MOODS_success :
  MOODS !! "success" = Some ["hsl(120, 100%, 75%)"; "hsl(120, 100%, 95%)"].
Proof. reflexivity. Qed.

(** The literal has no other own property. *)
Lemma MOODS_other (k : string) : ¬ enumerated k → MOODS !! k = None.
Proof.
  intros Hk. unfold MOODS.
  rewrite !lookup_insert_ne; [apply lookup_empty | ..];
    intros <-; apply Hk; unfold enumerated; auto.
Qed.

Lemma MOODS_enumerated (k : string) :
  enumerated k → ∃ b g, MOODS !! k = Some [b; g].
Proof. intros [-> | [-> | ->]]; do 2 eexists; reflexivity. Qed.

(** Both interpolations read the same member of [MOODS]. *)
Lemma interpolations_own (p : props) (k : string) (b g : string) :
  to_key (mood_of p) = k → MOODS !! k = Some [b; g] →
  border p = Normal (CString b) ∧ background p = Normal (CString g).
Proof.
  intros Hk Hm. unfold border, background, MOODS_get.
  rewrite Hk, Hm. split; reflexivity.
Qed.

Lemma interpolations_other (p : props) :
  ¬ enumerated (to_key (mood_of p)) →
  border p = index (if bool_decide (to_key (mood_of p) ∈ Object_prototype)
                    then Inherited else Undefined) 0
  ∧ background p = index (if bool_decide (to_key (mood_of p) ∈ Object_prototype)
                          then Inherited else Undefined) 1.
Proof.
  intros Hk. unfold border, background, MOODS_get.
  rewrite (MOODS_other _ Hk). split; reflexivity.
Qed.

Lemma mood_of_absent (p : props) :
  get_prop p "mood" = VUndefined → mood_of p = VString "default".
Proof. unfold mood_of. intros ->. reflexivity. Qed.

Lemma mood_of_string (p : props) (s : string) :
  get_prop p "mood" = VString s → mood_of p = VString s.
Proof. unfold mood_of. intros ->. reflexivity. Qed.

Lemma Notice_of_colors (p : props) (b g : string) :
  border p = Normal (CString b) → background p = Normal (CString g) →
  Notice p =
    Normal (nl +:+ "  padding: 0.5em 1em;" +:+ nl
            +:+ "  border: solid 1px " +:+ b +:+ ";" +:+ nl
            +:+ "  background: " +:+ g +:+ ";" +:+ nl
            +:+ "  border-radius: 0.15rem;" +:+ nl
            +:+ "  margin: 1rem 0;" +:+ nl).
Proof. intros Hb Hg. unfold Notice. by rewrite Hb, Hg. Qed.

(** C6: with [mood="danger"] the two interpolations give the danger pair of
    [MOODS] and the style is written with that pair, the first color on the
    border and the second on the background; with no [mood] prop the same
    holds of the default pair; for each of the three moods the colors are
    the pair [MOODS] holds for it, written into the style in that order;
    and two props objects with the same [mood] get the same colors and the
    same style, whatever else they contain. *)
Theorem notice_colors_by_mood :
  (∀ p : props, get_prop p "mood" = VString "danger" →
     border p = Normal (CString "hsl(0, 100%, 85%)")
     ∧ background p = Normal (CString "hsl(0, 100%, 95%)")
     ∧ Notice p =
         Normal (nl +:+ "  padding: 0.5em 1em;" +:+ nl
                 +:+ "  border: solid 1px hsl(0, 100%, 85%);" +:+ nl
                 +:+ "  background: hsl(0, 100%, 95%);" +:+ nl
                 +:+ "  border-radius: 0.15rem;" +:+ nl
                 +:+ "  margin: 1rem 0;" +:+ nl))
  ∧ (∀ p : props, get_prop p "mood" = VUndefined →
     border p = Normal (CString "hsl(220, 100%, 85%)")
     ∧ background p = Normal (CString "hsl(220, 100%, 95%)")
     ∧ Notice p =
         Normal (nl +:+ "  padding: 0.5em 1em;" +:+ nl
                 +:+ "  border: solid 1px hsl(220, 100%, 85%);" +:+ nl
                 +:+ "  background: hsl(220, 100%, 95%);" +:+ nl
                 +:+ "  border-radius: 0.15rem;" +:+ nl
                 +:+ "  margin: 1rem 0;" +:+ nl))
  ∧ (∀ (p : props) (m : string), enumerated m →
     get_prop p "mood" = VString m →
     ∃ b g, MOODS !! m = Some [b; g]
       ∧ border p = Normal (CString b) ∧ background p = Normal (CString g)
       ∧ Notice p =
           Normal (nl +:+ "  padding: 0.5em 1em;" +:+ nl
                   +:+ "  border: solid 1px " +:+ b +:+ ";" +:+ nl
                   +:+ "  background: " +:+ g +:+ ";" +:+ nl
                   +:+ "  border-radius: 0.15rem;" +:+ nl
                   +:+ "  margin: 1rem 0;" +:+ nl))
  ∧ (∀ p q : props, get_prop p "mood" = get_prop q "mood" →
     border p = border q ∧ background p = background q
     ∧ Notice p = Notice q).
Proof.
  split; [|split; [|split]].
  - intros p Hp.
    destruct (interpolations_own p "danger" _ _
                ltac:(by rewrite (mood_of_string _ _ Hp)) MOODS_danger)
      as [Hb Hg].
    split; [done|]. split; [done|].
    by rewrite (Notice_of_colors p _ _ Hb Hg).
  - intros p Hp.
    destruct (interpolations_own p "default" _ _
                ltac:(by rewrite (mood_of_absent _ Hp)) MOODS_default)
      as [Hb Hg].
    split; [done|]. split; [done|].
    by rewrite (Notice_of_colors p _ _ Hb Hg).
  - intros p m Hm Hp. destruct (MOODS_enumerated m Hm) as (b & g & Hbg).
    exists b, g. split; [done|].
    destruct (interpolations_own p m b g
                ltac:(by rewrite (mood_of_string _ _ Hp)) Hbg) as [Hb Hg].
    split; [done|]. split; [done|]. by apply Notice_of_colors.
  - intros p q H. unfold Notice, border, background, mood_of.
    by rewrite H.
Qed.

Lemma notice_colors_by_mood_witness :
  Notice {[ "mood" := VString "danger" ]} =
    Normal (nl +:+ "  padding: 0.5em 1em;" +:+ nl
            +:+ "  border: solid 1px hsl(0, 100%, 85%);" +:+ nl
            +:+ "  background: hsl(0, 100%, 95%);" +:+ nl
            +:+ "  border-radius: 0.15rem;" +:+ nl
            +:+ "  margin: 1rem 0;" +:+ nl)
  ∧ background ∅ = Normal (CString "hsl(220, 100%, 95%)")
  ∧ Notice {[ "mood" := VString "success"; "title" := VString "saved" ]}
    = Notice {[ "mood" := VString "success" ]}.
Proof.
  destruct notice_colors_by_mood as (Hdanger & Habsent & _ & Hsame).
  split; [|split].
  - apply Hdanger. reflexivity.
  - apply Habsent. reflexivity.
  - apply Hsame. reflexivity.
Defined.

(** C7, as amended: let [k] be the property key the mood in effect
    converts to.  When [k] is none of the three keys of [MOODS] and not a
    name inherited from [Object.prototype], [MOODS[mood]] is [undefined]
    and the unguarded index read makes both interpolations, and the style,
    throw a [TypeError].  When [k] is an inherited name, [MOODS[mood]] is
    the inherited member and both interpolations return [undefined] without
    throwing.  In neither case is a color produced: the two interpolations
    yield colors exactly when [k] is one of the three keys, which is the
    case for an absent mood, for the three strings, and for any other
    value that converts to one of them. *)
Theorem notice_lookup_outside_enumeration :
  (∀ p : props, ¬ enumerated (to_key (mood_of p)) →
     (to_key (mood_of p) ∉ Object_prototype →
        MOODS_get (to_key (mood_of p)) = Undefined
        ∧ border p = TypeError ∧ background p = TypeError
        ∧ Notice p = TypeError)
     ∧ (to_key (mood_of p) ∈ Object_prototype →
        MOODS_get (to_key (mood_of p)) = Inherited
        ∧ border p = Normal CUndefined ∧ background p = Normal CUndefined)
     ∧ (∀ c, border p ≠ Normal (CString c))
     ∧ (∀ c, background p ≠ Normal (CString c)))
  ∧ (∀ p : props,
     (∃ b g, border p = Normal (CString b) ∧ background p = Normal (CString g))
     ↔ enumerated (to_key (mood_of p)))
  ∧ (∀ p : props, get_prop p "mood" = VUndefined →
     to_key (mood_of p) = "default")
  ∧ (∀ p : props, get_prop p "mood" ≠ VUndefined →
     to_key (mood_of p) = to_key (get_prop p "mood")).
Proof.
  assert (Hother : ∀ p : props, ¬ enumerated (to_key (mood_of p)) →
            (∀ c, border p ≠ Normal (CString c))
            ∧ (∀ c, background p ≠ Normal (CString c))).
  { intros p Hk. destruct (interpolations_other p Hk) as [Hb Hg].
    split; intros c; rewrite ?Hb, ?Hg; by case_bool_decide. }
  split; [|split; [|split]].
  - intros p Hk. destruct (interpolations_other p Hk) as [Hb Hg].
    split; [|split; [|by apply Hother]].
    + intros Hn. unfold Notice, MOODS_get. rewrite Hb, Hg.
      rewrite (MOODS_other _ Hk). by rewrite bool_decide_eq_false_2.
    + intros Hi. unfold MOODS_get. rewrite Hb, Hg.
      rewrite (MOODS_other _ Hk). by rewrite bool_decide_eq_true_2.
  - intros p. split.
    + intros (b & g & Hb & _).
      destruct (decide (enumerated (to_key (mood_of p)))) as [|Hn]; [done|].
      by destruct (proj1 (Hother p Hn) b).
    + intros Hen. destruct (MOODS_enumerated _ Hen) as (b & g & Hbg).
      exists b, g. by eapply interpolations_own.
  - intros p Hp. by rewrite (mood_of_absent _ Hp).
  - intros p Hp. unfold mood_of. by destruct (get_prop p "mood").
Qed.

Lemma notice_lookup_outside_enumeration_witness :
  border {[ "mood" := VString "warning" ]} = TypeError
  ∧ border {[ "mood" := VNull ]} = TypeError
  ∧ background {[ "mood" := VString "constructor" ]} = Normal CUndefined
  ∧ ∃ b g, border {[ "mood" := VArray [VString "danger"] ]} = Normal (CString b)
      ∧ background {[ "mood" := VArray [VString "danger"] ]} = Normal (CString g).
Proof.
  destruct notice_lookup_outside_enumeration as (Hout & Hiff & _).
  assert (Hw : ¬ enumerated (to_key (mood_of {[ "mood" := VString "warning" ]})))
    by (intros [H | [H | H]]; discriminate H).
  assert (Hn : ¬ enumerated (to_key (mood_of {[ "mood" := VNull ]})))
    by (intros [H | [H | H]]; discriminate H).
  assert (Hc : ¬ enumerated (to_key (mood_of {[ "mood" := VString "constructor" ]})))
    by (intros [H | [H | H]]; discriminate H).
  split; [|split; [|split]].
  - apply (Hout _ Hw).
    apply (bool_decide_unpack (_ ∉ Object_prototype)). vm_compute. exact I.
  - apply (Hout _ Hn).
    apply (bool_decide_unpack (_ ∉ Object_prototype)). vm_compute. exact I.
  - apply (Hout _ Hc).
    apply (bool_decide_unpack (_ ∈ Object_prototype)). vm_compute. exact I.
  - apply Hiff. right. left. reflexivity.
Defined.

(** The claim C7 as it was stated fails twice.  A mood outside the
    enumeration need not find [MOODS[mood]] undefined: [constructor] finds
    the inherited member and nothing throws.  And colors are not produced
    for the three enumerated strings and an absent mood only: the array
    holding the string [danger] is none of them and gets the danger
    pair. *)
Lemma notice_lookup_outside_enumeration_counterexample :
  ¬ (∀ p : props,
       get_prop p "mood" ≠ VUndefined →
       (∀ m, enumerated m → get_prop p "mood" ≠ VString m) →
       MOODS_get (to_key (mood_of p)) = Undefined
       ∧ border p = TypeError ∧ background p = TypeError)
  ∧ ¬ (∀ p : props,
       (∃ b g, border p = Normal (CString b) ∧ background p = Normal (CString g))
       ↔ (get_prop p "mood" = VUndefined
          ∨ ∃ m, enumerated m ∧ get_prop p "mood" = VString m)).
Proof.
  split.
  - intros H.
    destruct (H {[ "mood" := VString "constructor" ]}) as (Hget & _).
    + discriminate.
    + intros m [-> | [-> | ->]]; discriminate.
    + discriminate Hget.
  - intros H.
    destruct (proj1 (H {[ "mood" := VArray [VString "danger"] ]}))
      as [Habs | (m & _ & Hm)].
    + by exists "hsl(0, 100%, 85%)", "hsl(0, 100%, 95%)".
    + discriminate Habs.
    + discriminate Hm.
Qed.

End NoticeProperties.

(** * Properties of the [Guilds] view *)

Section GuildsProperties.
Import Guilds.

(** ** Rendering *)

Lemma list_items_not_li (ty : type) (k : option string)
    (ps : gmap string prop) (ch : list element) :
  ty ≠ Host "li" →
  list_items (Element ty k ps ch) = concat (map list_items ch).
Proof.
  intros Hty. cbn [list_items is_li].
  destruct ty as [tag| | |]; try reflexivity.
  rewrite bool_decide_eq_false_2; [reflexivity|]. congruence.
Qed.

Lemma list_items_guildNode (g : guild) :
  list_items (guildNode g) = [guildNode g].
Proof. reflexivity. Qed.

Lemma list_items_guildNodes (a : list guild) :
  concat (map list_items (guildNode <$> a)) = guildNode <$> a.
Proof.
  induction a as [|g a IH]; [reflexivity|].
  rewrite fmap_cons. cbn [map concat].
  rewrite list_items_guildNode, IH. reflexivity.
Qed.

Lemma list_items_render (s : state) (a : list guild) :
  guilds s = VArray a → list_items (render s) = guildNode <$> a.
Proof.
  intros Hs. unfold render, content. rewrite Hs.
  destruct a as [|g a]; [reflexivity|].
  cbn [length Nat.eqb negb]. unfold host.
  repeat (rewrite list_items_not_li by discriminate; cbn [map concat]).
  rewrite list_items_guildNodes.
  cbn [list_items is_li app]. by rewrite !app_nil_r.
Qed.

(** C1: for a non-empty guild list the rendered tree has exactly one [li]
    per guild, and the item of a guild carries that guild's id as its key
    and contains one [Link] whose [to] is [/guild/] followed by the id,
    wrapped around the [Guild] element of that guild; these items are the
    children of the [ul] of the content block. *)
Theorem guilds_one_item_per_guild (s : state) (a : list guild) :
  guilds s = VArray a → a ≠ [] →
  length (list_items (render s)) = length a
  ∧ Forall2 (λ g item,
      type_of item = Some (Host "li")
      ∧ key_of item = Some (id g)
      ∧ ∃ link, children_of item = [link]
          ∧ type_of link = Some Link
          ∧ prop_of link "to" = Some (PString ("/guild/" +:+ id g))
          ∧ children_of link = [Element Guild None {[ "guild" := PGuild g ]} []])
      a (list_items (render s))
  ∧ ∃ intro, children_of (render s) !! 1 =
      Some (Element Fragment None ∅
              [ intro;
                host "ul" {[ "className" := PString "guild-list" ]}
                  (list_items (render s)) ]).
Proof.
  intros Hs Ha. rewrite (list_items_render s a Hs). split; [|split].
  - apply length_fmap.
  - apply Forall2_fmap_r, Forall_Forall2_diag, Forall_forall.
    intros g _. repeat split. eexists. repeat split.
  - unfold render, content. rewrite Hs.
    destruct a as [|g a]; [done|]. eexists. reflexivity.
Qed.

Lemma guilds_one_item_per_guild_witness :
  let s := this_state
    (run [Mount; Resolve (VArray [ {| id := "42"; rest := {[ "name" := "Kennel" ]} |};
                                   {| id := "7"; rest := ∅ |} ])] initial) in
  length (list_items (render s)) = 2
  ∧ (key_of <$> list_items (render s)) = [Some "42"; Some "7"].
Proof.
  intros s.
  destruct (guilds_one_item_per_guild s
    [ {| id := "42"; rest := {[ "name" := "Kennel" ]} |};
      {| id := "7"; rest := ∅ |} ]) as (Hlen & Hall & _);
    [reflexivity | discriminate |].
  split; [exact Hlen|].
  apply Forall2_cons_inv_l in Hall as (i1 & l1 & (_ & Hk1 & _) & Hall & ->).
  apply Forall2_cons_inv_l in Hall as (i2 & l2 & (_ & Hk2 & _) & Hall & ->).
  apply Forall2_nil_inv_l in Hall as ->.
  cbn [fmap list_fmap]. by rewrite Hk1, Hk2.
Defined.

(** C2: for an empty guild list the content is the paragraph with the
    text [No servers.], and the tree has no list item. *)
Theorem guilds_empty_list (s : state) :
  guilds s = VArray [] →
  render s =
    host "div" {[ "id" := PString "guilds" ]}
      [ host "h2" ∅ [ Text "Servers" ];
        host "p" ∅ [ Text "No servers." ] ]
  ∧ list_items (render s) = [].
Proof.
  intros Hs. split.
  - unfold render, content. by rewrite Hs.
  - by rewrite (list_items_render s [] Hs).
Qed.

Lemma guilds_empty_list_witness :
  text_content (view (run [Mount; Resolve (VArray [])] initial))
  = "ServersNo servers.".
Proof.
  unfold view.
  destruct (guilds_empty_list
    (this_state (run [Mount; Resolve (VArray [])] initial))) as [-> _];
    reflexivity.
Defined.

(** C9: for every guild list, the list items of the rendered tree are the
    images of the guilds under [guildNode], in the order of the array: the
    item at a position is the one built from the guild at that position. *)
Theorem guilds_items_in_order (s : state) (a : list guild) :
  guilds s = VArray a →
  list_items (render s) = guildNode <$> a
  ∧ (∀ (n : nat) (g : guild), a !! n = Some g →
       list_items (render s) !! n = Some (guildNode g))
  ∧ key_of <$> list_items (render s) = (λ g, Some (id g)) <$> a.
Proof.
  intros Hs. rewrite (list_items_render s a Hs). split; [done|split].
  - intros n g Hn. by rewrite list_lookup_fmap, Hn.
  - rewrite <-list_fmap_compose. reflexivity.
Qed.

Lemma guilds_items_in_order_witness :
  key_of <$> list_items (render {| guilds := VArray
    [ {| id := "b"; rest := ∅ |}; {| id := "a"; rest := ∅ |};
      {| id := "b"; rest := ∅ |} ] |})
  = [Some "b"; Some "a"; Some "b"].
Proof.
  destruct (guilds_items_in_order
    {| guilds := VArray [ {| id := "b"; rest := ∅ |}; {| id := "a"; rest := ∅ |};
                          {| id := "b"; rest := ∅ |} ] |}
    [ {| id := "b"; rest := ∅ |}; {| id := "a"; rest := ∅ |};
      {| id := "b"; rest := ∅ |} ]) as (_ & _ & ->); reflexivity.
Defined.

Lemma exec_frames (body : async unit) (i : instance) :
  frames (exec body i) = frames i.
Proof.
  revert i. induction body as [r|path k IH|partial k IH]; intros i; cbn [exec].
  - reflexivity.
  - reflexivity.
  - by rewrite IH.
Qed.

Lemma step_frames (e : event) (i : instance) :
  frames (step e i) = frames i
  ∨ frames (step e i) = (frames i ++ [render (this_state i)])%list.
Proof.
  destruct e as [|v| |]; cbn [step].
  - left. destruct (mounted i); [done|]. by rewrite exec_frames.
  - left. destruct (pending i); [|done]. by rewrite exec_frames.
  - by left.
  - by right.
Qed.

Lemma run_frames (P : element → Prop) (evs : list event) (i : instance) :
  (∀ s, P (render s)) → Forall P (frames i) → Forall P (frames (run evs i)).
Proof.
  intros HP. revert i. induction evs as [|e evs IH]; intros i Hi; [done|].
  cbn [run]. apply IH.
  destruct (step_frames e i) as [-> | ->]; [done|].
  apply Forall_app. split; [done|]. by apply Forall_singleton.
Qed.

(** C10: whatever the state, [render] returns the same container, a [div]
    without key whose only prop is the id [guilds], with the same first
    child, the heading [Servers], and one more child, the content block;
    so two frames differ in nothing but that block.  The same holds of
    every frame an instance ever renders. *)
Theorem guilds_outer_container :
  (∀ s : state,
     render s =
       Element (Host "div") None {[ "id" := PString "guilds" ]}
         [ Element (Host "h2") None ∅ [ Text "Servers" ];
           content (guilds s) ])
  ∧ (∀ s s' : state,
     type_of (render s) = type_of (render s')
     ∧ key_of (render s) = key_of (render s')
     ∧ (∀ name, prop_of (render s) name = prop_of (render s') name)
     ∧ length (children_of (render s)) = 2
     ∧ length (children_of (render s')) = 2
     ∧ children_of (render s) !! 0 = children_of (render s') !! 0)
  ∧ (∀ evs : list event,
     Forall (λ f, ∃ c,
               f = Element (Host "div") None {[ "id" := PString "guilds" ]}
                     [ Element (Host "h2") None ∅ [ Text "Servers" ]; c ])
       (frames (run evs initial))).
Proof.
  split; [done|]. split.
  - intros s s'. by repeat split.
  - intros evs. apply run_frames; [|by apply Forall_nil].
    intros s. by eexists.
Qed.

(** ** The life of an instance *)

Lemma run_app (evs1 evs2 : list event) (i : instance) :
  run (evs1 ++ evs2) i = run evs2 (run evs1 i).
Proof. revert i. induction evs1 as [|e evs1 IH]; intros i; [done|]. apply IH. Qed.

Lemma phase_run_cons (e : event) (evs : list event) (ph : phase) :
  phase_run (e :: evs) ph = phase_run evs (phase_step e ph).
Proof. reflexivity. Qed.

Lemma render_loading (s : state) :
  s = {| guilds := VNull |} → render s = loading_frame.
Proof. by intros ->. Qed.

Lemma in_phase_initial : in_phase Fresh initial.
Proof. repeat split. apply Forall_nil. done. Qed.

(** Each event moves the instance as [phase_step] says. *)
Lemma step_in_phase (e : event) (ph : phase) (i : instance) :
  in_phase ph i → in_phase (phase_step e ph) (step e i).
Proof.
  destruct ph as [| | |w]; cbn [in_phase].
  - intros (Hm & Hp & Hs & Hr & Hu & Hf).
    destruct e as [|v| |]; cbn [phase_step step in_phase]; rewrite ?Hm, ?Hp;
      cbn; rewrite ?Hr; repeat split; try done.
    apply Forall_app. split; [done|]. apply Forall_singleton.
    by apply render_loading.
  - intros (Hm & Hp & Hs & Hr & Hu & Hf).
    destruct e as [|v| |]; cbn [phase_step step in_phase]; rewrite ?Hm, ?Hp;
      cbn; rewrite ?Hu; repeat split; try done.
    apply Forall_app. split; [done|]. apply Forall_singleton.
    by apply render_loading.
  - intros (Hm & Hp & Hs & Hr & Hu & Hf).
    destruct e as [|v| |]; cbn [phase_step step in_phase]; rewrite ?Hm, ?Hp;
      cbn; repeat split; try done.
    apply Forall_app. split; [done|]. apply Forall_singleton.
    by apply render_loading.
  - intros (Hm & Hp & Hs & Hr & Hu).
    destruct e as [|v| |]; cbn [phase_step step in_phase]; rewrite ?Hm, ?Hp;
      cbn; repeat split; done.
Qed.

Lemma run_in_phase (evs : list event) (ph : phase) (i : instance) :
  in_phase ph i → in_phase (phase_run evs ph) (run evs i).
Proof.
  revert ph i. induction evs as [|e evs IH]; intros ph i Hi; [done|].
  rewrite phase_run_cons. cbn [run]. by apply IH, step_in_phase.
Qed.

Lemma reachable_in_phase (evs : list event) :
  in_phase (phase_run evs Fresh) (run evs initial).
Proof. apply run_in_phase, in_phase_initial. Qed.

Lemma phase_run_Settled (evs : list event) (v : value) :
  phase_run evs (Settled v) = Settled v.
Proof.
  induction evs as [|e evs IH]; [done|].
  rewrite phase_run_cons. by destruct e.
Qed.

Lemma phase_run_Failed (evs : list event) : phase_run evs Failed = Failed.
Proof.
  induction evs as [|e evs IH]; [done|].
  rewrite phase_run_cons. by destruct e.
Qed.

Lemma phase_run_unsettled (evs : list event) (ph : phase) :
  (∀ v, Resolve v ∉ evs) → (∀ v, ph ≠ Settled v) →
  ∀ v, phase_run evs ph ≠ Settled v.
Proof.
  revert ph. induction evs as [|e evs IH]; intros ph Hevs Hph; [done|].
  rewrite phase_run_cons. apply IH.
  - intros v Hv. apply (Hevs v). by right.
  - destruct ph, e as [|w| |]; cbn [phase_step]; try done.
    exfalso. apply (Hevs w). by left.
Qed.

Lemma phase_run_mounted (evs : list event) (ph : phase) :
  ph ≠ Fresh → phase_run evs ph ≠ Fresh.
Proof.
  revert ph. induction evs as [|e evs IH]; intros ph Hph; [done|].
  rewrite phase_run_cons. apply IH. by destruct ph, e.
Qed.

Lemma phase_run_Fresh (evs : list event) :
  phase_run evs Fresh = Fresh ↔ Mount ∉ evs.
Proof.
  induction evs as [|e evs IH].
  - split; [|done]. intros _ H. by apply elem_of_nil in H.
  - rewrite phase_run_cons, not_elem_of_cons.
    destruct e; cbn [phase_step]; rewrite ?IH; try (split; [intros ?; split; done | by intros [_ ?]]).
    split; [|by intros [? _]].
    intros H. by apply phase_run_mounted in H.
Qed.

Lemma in_phase_unsettled (ph : phase) (i : instance) :
  in_phase ph i → (∀ v, ph ≠ Settled v) →
  this_state i = {| guilds := VNull |} ∧ updates i = 0
  ∧ Forall (λ f, f = loading_frame) (frames i).
Proof.
  destruct ph as [| | |w]; cbn [in_phase].
  - by intros (_ & _ & ? & _ & ? & ?) _.
  - by intros (_ & _ & ? & _ & ? & ?) _.
  - by intros (_ & _ & ? & _ & ? & ?) _.
  - intros _ H. by destruct (H w).
Qed.

Lemma in_phase_pending (ph : phase) (i : instance) :
  in_phase ph i → is_Some (pending i) → ph = Fetching.
Proof.
  destruct ph as [| | |w]; cbn [in_phase]; [|done|..];
    intros (_ & Hp & _) [k Hk]; congruence.
Qed.

Lemma in_phase_requests (ph : phase) (i : instance) :
  in_phase ph i → ph ≠ Fresh → requests i = ["/api/guilds"].
Proof.
  destruct ph as [| | |w]; cbn [in_phase]; [done|..];
    by intros (_ & _ & _ & ? & _) _.
Qed.

Lemma in_phase_updates (ph : phase) (i : instance) :
  in_phase ph i → (updates i ≤ 1)%nat.
Proof.
  destruct ph as [| | |w]; cbn [in_phase]; intros H;
    [destruct H as (_ & _ & _ & _ & Hu & _)..
    |destruct H as (_ & _ & _ & _ & Hu)]; lia.
Qed.

Lemma in_phase_view_state (ph : phase) (i : instance) (gs : list guild) :
  in_phase ph i → view_state (this_state i) = Loaded gs →
  ph = Settled (VArray gs).
Proof.
  destruct ph as [| | |w]; cbn [in_phase]; intros (_ & _ & Hs & _);
    rewrite Hs; unfold view_state; cbn [guilds]; try done.
  destruct w; congruence.
Qed.

(** C3: while [guilds] is [null] the view is the container with the
    paragraph [Loading servers...]; and as long as no fulfilment of the
    fetch has been delivered, [guilds] is still the initial [null] and
    every frame rendered so far is that loading view. *)
Theorem guilds_loading_before_resolution :
  (∀ s : state, guilds s = VNull →
     render s =
       host "div" {[ "id" := PString "guilds" ]}
         [ host "h2" ∅ [ Text "Servers" ];
           host "p" ∅ [ Text "Loading servers..." ] ])
  ∧ (∀ evs : list event, (∀ v, Resolve v ∉ evs) →
     guilds (this_state (run evs initial)) = VNull
     ∧ view (run evs initial) = loading_frame
     ∧ Forall (λ f, f = loading_frame) (frames (run evs initial))).
Proof.
  split.
  - intros s Hs. unfold render. by rewrite Hs.
  - intros evs Hevs.
    destruct (in_phase_unsettled _ _ (reachable_in_phase evs))
      as (Hs & _ & Hf).
    { by apply phase_run_unsettled. }
    unfold view. rewrite Hs. by repeat split.
Qed.

Lemma guilds_loading_before_resolution_witness :
  text_content (render {| guilds := VNull |}) = "ServersLoading servers..."
  ∧ frames (run [Render; Mount; Render; Reject; Render] initial)
    = [loading_frame; loading_frame; loading_frame].
Proof.
  destruct guilds_loading_before_resolution as [Hnull Hrun]. split.
  - rewrite (Hnull {| guilds := VNull |}); reflexivity.
  - destruct (Hrun [Render; Mount; Render; Reject; Render]) as (_ & _ & Hf).
    + intros v Hv.
      repeat (apply elem_of_cons in Hv as [Hv|Hv]; [discriminate Hv|]).
      by apply elem_of_nil in Hv.
    + reflexivity.
Defined.

(** C5: when the promise of the fetch in flight is rejected, no [setState]
    is ever performed, [guilds] stays [null], and from then on the view and
    every frame rendered is the loading view, whatever happens next. *)
Theorem guilds_rejected_fetch (before after : list event) :
  is_Some (pending (run before initial)) →
  updates (run (before ++ Reject :: after) initial) = 0
  ∧ this_state (run (before ++ Reject :: after) initial) = {| guilds := VNull |}
  ∧ view (run (before ++ Reject :: after) initial) =
      host "div" {[ "id" := PString "guilds" ]}
        [ host "h2" ∅ [ Text "Servers" ];
          host "p" ∅ [ Text "Loading servers..." ] ]
  ∧ Forall (λ f, f = loading_frame)
      (frames (run (before ++ Reject :: after) initial)).
Proof.
  intros Hp.
  pose proof (reachable_in_phase before) as Hb.
  rewrite (in_phase_pending _ _ Hb Hp) in Hb.
  pose proof (run_in_phase (Reject :: after) _ _ Hb) as Ha.
  rewrite phase_run_cons in Ha. cbn [phase_step] in Ha.
  rewrite phase_run_Failed in Ha. rewrite <-run_app in Ha.
  destruct Ha as (_ & _ & Hs & _ & Hu & Hf).
  unfold view. rewrite Hs. by repeat split.
Qed.

Lemma guilds_rejected_fetch_witness :
  updates (run ([Render; Mount] ++ Reject :: [Render; Resolve (VArray []); Mount; Render]) initial) = 0
  ∧ frames (run ([Render; Mount] ++ Reject :: [Render; Resolve (VArray []); Mount; Render]) initial)
    = [loading_frame; loading_frame; loading_frame].
Proof.
  destruct (guilds_rejected_fetch [Render; Mount]
              [Render; Resolve (VArray []); Mount; Render])
    as (Hu & _ & _ & _).
  - eexists. reflexivity.
  - split; [exact Hu | reflexivity].
Defined.

Lemma step_Resolve_fetching (i : instance) (v : value) :
  in_phase Fetching i → this_state (step (Resolve v) i) = {| guilds := v |}.
Proof.
  intros Hi. by destruct (step_in_phase (Resolve v) _ _ Hi) as (_ & _ & ? & _).
Qed.

(** C4: an instance starts in [Loading]; it performs at most one
    [setState]; it leaves [Loading] for [Loaded] only through the
    fulfilment of its fetch in flight, which does take it to [Loaded] with
    the fetched list; and once it is [Loaded] its state never changes
    again, whatever follows. *)
Theorem guilds_loading_then_loaded :
  view_state (this_state initial) = Loading
  ∧ (∀ evs : list event, (updates (run evs initial) ≤ 1)%nat)
  ∧ (∀ (evs : list event) (e : event) (gs : list guild),
     view_state (this_state (run evs initial)) = Loading →
     view_state (this_state (step e (run evs initial))) = Loaded gs →
     e = Resolve (VArray gs) ∧ is_Some (pending (run evs initial)))
  ∧ (∀ (evs : list event) (gs : list guild),
     is_Some (pending (run evs initial)) →
     view_state (this_state (step (Resolve (VArray gs)) (run evs initial)))
     = Loaded gs)
  ∧ (∀ (evs later : list event) (gs : list guild),
     view_state (this_state (run evs initial)) = Loaded gs →
     this_state (run (evs ++ later) initial) = this_state (run evs initial)
     ∧ view_state (this_state (run (evs ++ later) initial)) = Loaded gs
     ∧ updates (run (evs ++ later) initial) = 1).
Proof.
  split; [done|]. split; [|split; [|split]].
  - intros evs. exact (in_phase_updates _ _ (reachable_in_phase evs)).
  - intros evs e gs Hbefore Hafter.
    pose proof (reachable_in_phase evs) as Hi.
    pose proof (step_in_phase e _ _ Hi) as Hi'.
    apply (in_phase_view_state _ _ gs) in Hi'; [|done].
    destruct (phase_run evs Fresh) as [| | |w] eqn:Hph.
    + by destruct e.
    + destruct e as [|v| |]; try done. cbn [phase_step] in Hi'.
      injection Hi' as ->. destruct Hi as (_ & -> & _). by split.
    + by destruct e.
    + exfalso. assert (w = VArray gs) as -> by (by destruct e; injection Hi').
      destruct Hi as (_ & _ & Hs & _). by rewrite Hs in Hbefore.
  - intros evs gs Hp.
    pose proof (reachable_in_phase evs) as Hi.
    rewrite (in_phase_pending _ _ Hi Hp) in Hi.
    by rewrite (step_Resolve_fetching _ _ Hi).
  - intros evs later gs Hgs.
    pose proof (reachable_in_phase evs) as Hi.
    rewrite (in_phase_view_state _ _ gs Hi Hgs) in Hi.
    pose proof (run_in_phase later _ _ Hi) as Hl.
    rewrite phase_run_Settled, <-run_app in Hl.
    destruct Hi as (_ & _ & Hs & _), Hl as (_ & _ & Hs' & _ & Hu).
    by rewrite Hs', Hs.
Qed.

Lemma guilds_loading_then_loaded_witness :
  view_state (this_state
    (run ([Mount; Render; Resolve (VArray [ {| id := "42"; rest := ∅ |} ])]
          ++ [Render; Resolve VNull; Reject; Mount; Resolve (VArray [])])
       initial))
  = Loaded [ {| id := "42"; rest := ∅ |} ]
  ∧ view_state (this_state (step (Resolve (VArray [])) (run [Render; Mount] initial)))
    = Loaded [].
Proof.
  destruct guilds_loading_then_loaded as (_ & _ & _ & Hresolve & Hstable).
  split.
  - apply Hstable. reflexivity.
  - apply Hresolve. eexists. reflexivity.
Defined.

(** C8: an instance that has been mounted has issued exactly one request,
    for [/api/guilds]; one that has not been mounted has issued none; and
    no event other than the mount adds a request, nor does a mount of an
    instance that is already mounted. *)
Theorem guilds_single_fetch :
  (∀ evs : list event, Mount ∈ evs →
     requests (run evs initial) = ["/api/guilds"])
  ∧ (∀ evs : list event, Mount ∉ evs → requests (run evs initial) = [])
  ∧ (∀ (evs : list event) (e : event), e ≠ Mount ∨ Mount ∈ evs →
     requests (step e (run evs initial)) = requests (run evs initial)).
Proof.
  assert (Hmounted : ∀ evs, Mount ∈ evs →
            requests (run evs initial) = ["/api/guilds"]).
  { intros evs Hin.
    apply (in_phase_requests _ _ (reachable_in_phase evs)).
    intros Hph. by apply phase_run_Fresh in Hph. }
  assert (Hfresh : ∀ evs, Mount ∉ evs → requests (run evs initial) = []).
  { intros evs Hin. pose proof (reachable_in_phase evs) as Hi.
    apply phase_run_Fresh in Hin. rewrite Hin in Hi.
    by destruct Hi as (_ & _ & _ & ? & _). }
  split; [done|]. split; [done|].
  intros evs e He.
  pose proof (reachable_in_phase evs) as Hi.
  pose proof (step_in_phase e _ _ Hi) as Hi'.
  destruct (phase_run evs Fresh) as [| | |w] eqn:Hph.
  - apply phase_run_Fresh in Hph. destruct He as [He|He]; [|done].
    destruct Hi as (_ & _ & _ & -> & _).
    destruct e; try done; by destruct Hi' as (_ & _ & _ & ? & _).
  - rewrite (in_phase_requests _ _ Hi) by done.
    apply (in_phase_requests _ _ Hi'). by destruct e.
  - rewrite (in_phase_requests _ _ Hi) by done.
    apply (in_phase_requests _ _ Hi'). by destruct e.
  - rewrite (in_phase_requests _ _ Hi) by done.
    apply (in_phase_requests _ _ Hi'). by destruct e.
Qed.

Lemma guilds_single_fetch_witness :
  requests (run [Render; Mount; Render; Resolve (VArray []); Mount; Render] initial)
  = ["/api/guilds"]
  ∧ requests (run [Render; Resolve (VArray []); Reject] initial) = []
  ∧ requests (step Mount (run [Mount; Reject] initial))
    = requests (run [Mount; Reject] initial).
Proof.
  destruct guilds_single_fetch as (Hmounted & Hfresh & Hstep).
  split; [|split].
  - apply Hmounted. by repeat constructor.
  - apply Hfresh. intros Hin.
    repeat (apply elem_of_cons in Hin as [Hin|Hin]; [discriminate Hin|]).
    by apply elem_of_nil in Hin.
  - apply Hstep. right. by constructor.
Defined.

End GuildsProperties.

(** * Further properties of [Notice] *)

Section NoticeFurther.
Import Notice.

Lemma Notice_of_interpolations (p : props) (b g : css_value) :
  border p = Normal b → background p = Normal g →
  ∃ css, Notice p = Normal css.
Proof. intros Hb Hg. unfold Notice. rewrite Hb, Hg. by eexists. Qed.

(** X1: the style of a [Notice] throws exactly when the mood in effect is
    neither one of the three entries of [MOODS] nor a name inherited from
    [Object.prototype]; and the two interpolations throw together: each of
    them throws exactly when the whole style does. *)
Theorem notice_throws_iff (p : props) :
  (Notice p = TypeError
   ↔ ¬ enumerated (to_key (mood_of p))
     ∧ to_key (mood_of p) ∉ Object_prototype)
  ∧ (border p = TypeError ↔ Notice p = TypeError)
  ∧ (background p = TypeError ↔ Notice p = TypeError).
Proof.
  destruct (decide (enumerated (to_key (mood_of p)))) as [Hen|Hen].
  - destruct (MOODS_enumerated _ Hen) as (b & g & Hbg).
    destruct (interpolations_own p _ b g eq_refl Hbg) as [Hb Hg].
    destruct (Notice_of_interpolations p _ _ Hb Hg) as [css Hcss].
    rewrite Hb, Hg, Hcss. repeat split; try done. by intros [? _].
  - destruct (interpolations_other p Hen) as [Hb Hg].
    destruct (decide (to_key (mood_of p) ∈ Object_prototype)) as [Hin|Hin].
    + rewrite bool_decide_eq_true_2 in Hb, Hg by done. cbn [index] in Hb, Hg.
      destruct (Notice_of_interpolations p _ _ Hb Hg) as [css Hcss].
      rewrite Hb, Hg, Hcss. repeat split; try done. by intros [_ ?].
    + rewrite bool_decide_eq_false_2 in Hb, Hg by done. cbn [index] in Hb, Hg.
      assert (Notice p = TypeError) as Hcss by (unfold Notice; by rewrite Hb).
      rewrite Hb, Hg, Hcss. by repeat split.
Qed.



Lemma Notice_enumerated (p : props) (k : string) :
  to_key (mood_of p) = k → enumerated k →
  Notice p = Notice {[ "mood" := VString k ]}
  ∧ border p = border {[ "mood" := VString k ]}
  ∧ background p = background {[ "mood" := VString k ]}.
Proof.
  intros Hk Hen. unfold Notice, border, background. rewrite Hk.
  by destruct Hen as [-> | [-> | ->]].
Qed.

(** X3: the three moods can be told apart by what is rendered.  For props
    whose moods are entries of [MOODS], two styles are equal exactly when
    the moods are the same, and the border color always differs from the
    background color. *)
Theorem notice_moods_distinguishable (p q : props) :
  enumerated (to_key (mood_of p)) → enumerated (to_key (mood_of q)) →
  (Notice p = Notice q ↔ to_key (mood_of p) = to_key (mood_of q))
  ∧ border p ≠ background p.
Proof.
  intros Hp Hq.
  destruct (Notice_enumerated p _ eq_refl Hp) as (-> & -> & ->).
  destruct (Notice_enumerated q _ eq_refl Hq) as (-> & _ & _).
  destruct Hp as [-> | [-> | ->]], Hq as [-> | [-> | ->]];
    (split; [split; [intros H; try reflexivity; vm_compute in H; discriminate H
                    | intros H; try reflexivity; discriminate H]
            | vm_compute; discriminate]).
Qed.

Lemma notice_moods_distinguishable_witness :
  Notice {[ "mood" := VString "success" ]} ≠ Notice ∅
  ∧ border ∅ ≠ background ∅.
Proof.
  destruct (notice_moods_distinguishable {[ "mood" := VString "success" ]} ∅)
    as [Hiff Hne].
  - right. right. reflexivity.
  - left. reflexivity.
  - split; [|exact (proj2 (notice_moods_distinguishable ∅ ∅
                            (or_introl eq_refl) (or_introl eq_refl)))].
    intros H. apply Hiff in H. discriminate H.
Defined.

End NoticeFurther.

(** * Further properties of the [Guilds] view *)

Section GuildsFurther.
Import Guilds.

(** ** Keys and link targets *)

Lemma links_not_Link (ty : type) (k : option string)
    (ps : gmap string prop) (ch : list element) :
  ty ≠ Link → links (Element ty k ps ch) = concat (map links ch).
Proof. intros Hty. cbn [links link_target]. by destruct ty. Qed.

Lemma links_guildNode (g : guild) :
  links (guildNode g) = ["/guild/" +:+ id g].
Proof.
  unfold guildNode. rewrite links_not_Link by discriminate.
  cbn [map concat links link_target].
  by rewrite lookup_singleton_eq.
Qed.

Lemma links_guildNodes (a : list guild) :
  concat (map links (guildNode <$> a)) = (λ g, "/guild/" +:+ id g) <$> a.
Proof.
  induction a as [|g a IH]; [reflexivity|].
  rewrite !fmap_cons. cbn [map concat].
  rewrite links_guildNode. cbn [app]. f_equal. exact IH.
Qed.

Lemma links_render (s : state) (a : list guild) :
  guilds s = VArray a → links (render s) = (λ g, "/guild/" +:+ id g) <$> a.
Proof.
  intros Hs. unfold render, content. rewrite Hs.
  destruct a as [|g a]; [reflexivity|].
  cbn [length Nat.eqb negb]. unfold host.
  repeat (rewrite links_not_Link by discriminate; cbn [map concat]).
  rewrite links_guildNodes.
  cbn [links link_target app]. by rewrite !app_nil_r.
Qed.

(** X4: the keys of the rendered list items are pairwise distinct exactly
    when the ids of the fetched guilds are, and so are the targets of the
    rendered links, which are [/guild/] followed by the id as it is: two
    guilds with one id give two items with one key and one target. *)
Theorem guilds_keys_distinct_iff (s : state) (a : list guild) :
  guilds s = VArray a →
  (NoDup (key_of <$> list_items (render s)) ↔ NoDup (id <$> a))
  ∧ links (render s) = (λ g, "/guild/" +:+ id g) <$> a
  ∧ (NoDup (links (render s)) ↔ NoDup (id <$> a)).
Proof.
  intros Hs. rewrite (list_items_render s a Hs), (links_render s a Hs).
  split; [|split; [done|]].
  - rewrite <-list_fmap_compose.
    replace (key_of ∘ guildNode) with (Some ∘ id) by done.
    rewrite list_fmap_compose. apply (NoDup_fmap Some).
  - replace (λ g, "/guild/" +:+ id g) with (String.app "/guild/" ∘ id) by done.
    rewrite list_fmap_compose. apply (NoDup_fmap (String.app "/guild/")).
Qed.

Lemma guilds_keys_distinct_iff_witness :
  ¬ NoDup (key_of <$> list_items (render {| guilds := VArray
      [ {| id := "7"; rest := {[ "name" := "Kennel" ]} |};
        {| id := "7"; rest := {[ "name" := "Pound" ]} |} ] |}))
  ∧ links (render {| guilds := VArray
      [ {| id := "7"; rest := {[ "name" := "Kennel" ]} |};
        {| id := "7"; rest := {[ "name" := "Pound" ]} |} ] |})
    = ["/guild/7"; "/guild/7"].
Proof.
  destruct (guilds_keys_distinct_iff
    {| guilds := VArray
      [ {| id := "7"; rest := {[ "name" := "Kennel" ]} |};
        {| id := "7"; rest := {[ "name" := "Pound" ]} |} ] |}
    [ {| id := "7"; rest := {[ "name" := "Kennel" ]} |};
      {| id := "7"; rest := {[ "name" := "Pound" ]} |} ] eq_refl)
    as (Hkeys & Hlinks & _).
  split; [|exact Hlinks].
  intros H. apply Hkeys in H. cbn in H.
  apply NoDup_cons in H as [H _]. apply H. by left.
Defined.

(** ** What a frame tells about the state *)

Lemma guildNode_inj : Inj (=) (=) guildNode.
Proof.
  intros g g' H.
  apply (f_equal (λ e,
    match e with
    | Element _ _ _ [ Element _ _ _ [ Element _ _ ps _ ] ] => ps !! "guild"
    | _ => None
    end)) in H.
  cbn in H. rewrite !lookup_singleton_eq in H. congruence.
Qed.

Lemma content_inj (v v' : value) :
  content v = content v' →
  view_state {| guilds := v |} = view_state {| guilds := v' |}.
Proof.
  unfold view_state. cbn [guilds].
  destruct v as [| |a], v' as [| |a']; cbn [content]; try done.
  - destruct a'; discriminate.
  - destruct a'; discriminate.
  - destruct a; discriminate.
  - destruct a; discriminate.
  - destruct a as [|g a], a' as [|g' a']; cbn [length Nat.eqb negb];
      try done; try discriminate.
    intros H.
    apply (f_equal (λ e,
      match e with
      | Element _ _ _ [ _; Element _ _ _ items ] => items
      | _ => []
      end)) in H.
    cbn beta iota in H. unfold host in H. cbn beta iota in H.
    apply (list_fmap_eq_inj guildNode guildNode_inj) in H. by rewrite H.
Qed.

(** X5: a frame determines the state up to the difference between [null]
    and [undefined]: two states render the same tree exactly when both are
    loading or both hold the same array of guilds. *)
Theorem guilds_render_determines_state (s s' : state) :
  render s = render s' ↔ view_state s = view_state s'.
Proof.
  destruct s as [v], s' as [v']. split.
  - intros H. apply content_inj.
    apply (f_equal (λ e, children_of e !! 1)) in H.
    cbn in H. congruence.
  - unfold view_state, render. cbn [guilds].
    destruct v as [| |a], v' as [| |a']; try done. by intros [= ->].
Qed.

(** X9: the text nodes the view writes itself never depend on the guilds:
    whatever the state, they read as one of three fixed strings, and all
    that is shown of a guild comes from its [Guild] element. *)
Theorem guilds_own_text (s : state) :
  text_content (render s) = "ServersLoading servers..."
  ∨ text_content (render s) = "ServersNo servers."
  ∨ text_content (render s)
    = "ServersClick on a server below to edit its configuration:".
Proof.
  destruct s as [[| |a]]; [by left | by left |].
  destruct a as [|g a]; [right; by left|]. right. right.
  assert (Hitems : ∀ l : list guild,
            String.concat "" (map text_content (guildNode <$> l)) = "").
  { induction l as [|x l IH]; [done|].
    rewrite fmap_cons. cbn [map]. cbn [String.concat].
    destruct (map text_content (guildNode <$> l)) eqn:Hl; [done|].
    rewrite IH. reflexivity. }
  unfold render, content. cbn [guilds length Nat.eqb negb]. unfold host.
  cbn [text_content map]. rewrite Hitems. reflexivity.
Qed.

(** ** The frames of an instance over time *)

Lemma step_frames_other (e : event) (i : instance) :
  e ≠ Render → frames (step e i) = frames i.
Proof.
  destruct e as [|v| |]; cbn [step]; intros He; try done.
  - destruct (mounted i); [done|]. by rewrite exec_frames.
  - destruct (pending i); [|done]. by rewrite exec_frames.
Qed.

Lemma step_frames_Render (i : instance) :
  frames (step Render i) = (frames i ++ [render (this_state i)])%list.
Proof. reflexivity. Qed.

Lemma in_phase_this_state (ph : phase) (i : instance) :
  in_phase ph i →
  this_state i = {| guilds := match ph with Settled v => v | _ => VNull end |}.
Proof. destruct ph; cbn [in_phase]; by intros (_ & _ & ? & _). Qed.

Lemma step_frames_shape (e : event) (ph : phase) (i : instance) :
  in_phase ph i → frames_shape ph i →
  frames_shape (phase_step e ph) (step e i).
Proof.
  intros Hi Hf. pose proof (in_phase_this_state _ _ Hi) as Hs.
  assert (e = Render ∨ e ≠ Render) as [->|He]
    by (destruct e; [by right | by right | by right | by left]).
  - replace (phase_step Render ph) with ph by (by destruct ph).
    destruct ph as [| | |v]; unfold frames_shape in *;
      rewrite step_frames_Render, Hs.
    + destruct Hf as [n ->]. exists (S n). by rewrite replicate_S_end.
    + destruct Hf as [n ->]. exists (S n). by rewrite replicate_S_end.
    + destruct Hf as [n ->]. exists (S n). by rewrite replicate_S_end.
    + destruct Hf as (n & m & ->). exists n, (S m).
      by rewrite replicate_S_end, app_assoc.
  - destruct ph as [| | |v], e as [|w| |]; try done;
      unfold frames_shape in *; cbn [phase_step];
      rewrite (step_frames_other _ i) by done; try done.
    destruct Hf as [n ->]. exists n, 0. cbn [replicate]. by rewrite app_nil_r.
Qed.

Lemma run_frames_shape (evs : list event) (ph : phase) (i : instance) :
  in_phase ph i → frames_shape ph i →
  frames_shape (phase_run evs ph) (run evs i).
Proof.
  revert ph i. induction evs as [|e evs IH]; intros ph i Hi Hf; [done|].
  rewrite phase_run_cons. cbn [run].
  apply IH; [by apply step_in_phase | by apply step_frames_shape].
Qed.

Lemma reachable_frames_shape (evs : list event) :
  frames_shape (phase_run evs Fresh) (run evs initial).
Proof. apply run_frames_shape; [apply in_phase_initial | by exists 0]. Qed.

(** X6: the frames an instance has rendered are a run of loading frames
    followed by a run of copies of its current view, and the second run is
    empty as long as no [setState] has been performed: once the loaded view
    has been shown, the loading view is never shown again, and nothing else
    ever is. *)
Theorem guilds_frames_monotone (evs : list event) :
  ∃ n m : nat,
    frames (run evs initial)
    = (replicate n loading_frame ++ replicate m (view (run evs initial)))%list
    ∧ (updates (run evs initial) = 0 → m = 0).
Proof.
  pose proof (reachable_in_phase evs) as Hi.
  pose proof (reachable_frames_shape evs) as Hf.
  pose proof (in_phase_this_state _ _ Hi) as Hs.
  unfold view. rewrite Hs.
  destruct (phase_run evs Fresh) as [| | |v]; unfold frames_shape in Hf.
  - destruct Hf as [n ->]. exists n, 0. by rewrite app_nil_r.
  - destruct Hf as [n ->]. exists n, 0. by rewrite app_nil_r.
  - destruct Hf as [n ->]. exists n, 0. by rewrite app_nil_r.
  - destruct Hf as (n & m & ->). exists n, m. split; [done|].
    destruct Hi as (_ & _ & _ & _ & ->). discriminate.
Qed.

(** X7: a fetch fulfilled with [null] or [undefined] does update the state,
    but the view cannot tell it from a fetch still in flight: it shows the
    loading view from then on, and every frame it ever rendered is the
    loading view. *)
Theorem guilds_null_fulfilment (before after : list event) (v : value) :
  is_Some (pending (run before initial)) →
  v = VNull ∨ v = VUndefined →
  updates (run (before ++ Resolve v :: after) initial) = 1
  ∧ guilds (this_state (run (before ++ Resolve v :: after) initial)) = v
  ∧ view (run (before ++ Resolve v :: after) initial) = loading_frame
  ∧ Forall (λ f, f = loading_frame)
      (frames (run (before ++ Resolve v :: after) initial)).
Proof.
  intros Hp Hv.
  assert (Hload : render {| guilds := v |} = loading_frame)
    by (by destruct Hv as [-> | ->]).
  pose proof (reachable_in_phase before) as Hb.
  pose proof (reachable_frames_shape before) as Hfb.
  pose proof (in_phase_pending _ _ Hb Hp) as Hph.
  rewrite Hph in Hb, Hfb.
  pose proof (run_in_phase (Resolve v :: after) _ _ Hb) as Ha.
  pose proof (run_frames_shape (Resolve v :: after) _ _ Hb Hfb) as Hfa.
  rewrite phase_run_cons in Ha, Hfa. cbn [phase_step] in Ha, Hfa.
  rewrite phase_run_Settled in Ha, Hfa. rewrite <-run_app in Ha, Hfa.
  destruct Ha as (_ & _ & Hs & _ & Hu), Hfa as (n & m & Hf).
  unfold view. rewrite Hs, Hu, Hf, Hload. repeat split; try done.
  apply Forall_app. split; apply Forall_forall; intros f Hin;
    by apply elem_of_replicate in Hin as [-> _].
Qed.

Lemma guilds_null_fulfilment_witness :
  updates (run ([Mount; Render] ++ Resolve VUndefined :: [Render; Render]) initial) = 1
  ∧ frames (run ([Mount; Render] ++ Resolve VUndefined :: [Render; Render]) initial)
    = [loading_frame; loading_frame; loading_frame].
Proof.
  destruct (guilds_null_fulfilment [Mount; Render] [Render; Render] VUndefined)
    as (Hu & _ & _ & _).
  - eexists. reflexivity.
  - by right.
  - split; [exact Hu | reflexivity].
Defined.

(** ** Where the displayed state comes from *)

Lemma phase_run_app (evs1 evs2 : list event) (ph : phase) :
  phase_run (evs1 ++ evs2) ph = phase_run evs2 (phase_run evs1 ph).
Proof. apply foldl_app. Qed.

Lemma phase_run_Fetching (evs : list event) :
  Forall (λ e, e = Mount ∨ e = Render) evs →
  phase_run evs Fetching = Fetching.
Proof.
  induction 1 as [|e evs He _ IH]; [done|].
  rewrite phase_run_cons. by destruct He as [-> | ->].
Qed.

Lemma phase_run_Fetching_Settled (evs : list event) (v : value) :
  phase_run evs Fetching = Settled v →
  ∃ l2 l3, evs = (l2 ++ Resolve v :: l3)%list
    ∧ Forall (λ e, e = Mount ∨ e = Render) l2.
Proof.
  induction evs as [|e evs IH]; [done|].
  rewrite phase_run_cons. destruct e as [|w| |]; cbn [phase_step].
  - intros (l2 & l3 & -> & Hl2)%IH. exists (Mount :: l2), l3.
    split; [done|]. constructor; [by left|done].
  - rewrite phase_run_Settled. intros [= ->]. by exists [], evs.
  - by rewrite phase_run_Failed.
  - intros (l2 & l3 & -> & Hl2)%IH. exists (Render :: l2), l3.
    split; [done|]. constructor; [by right|done].
Qed.

Lemma phase_run_Fresh_Settled (evs : list event) (v : value) :
  phase_run evs Fresh = Settled v →
  ∃ l1 l2 l3, evs = (l1 ++ Mount :: l2 ++ Resolve v :: l3)%list
    ∧ (Mount ∉ l1) ∧ Forall (λ e, e = Mount ∨ e = Render) l2.
Proof.
  induction evs as [|e evs IH]; [done|].
  rewrite phase_run_cons.
  assert (Hskip : e ≠ Mount → phase_run evs Fresh = Settled v →
    ∃ l1 l2 l3, e :: evs = (l1 ++ Mount :: l2 ++ Resolve v :: l3)%list
      ∧ (Mount ∉ l1) ∧ Forall (λ e, e = Mount ∨ e = Render) l2).
  { intros He (l1 & l2 & l3 & -> & Hl1 & Hl2)%IH.
    exists (e :: l1), l2, l3. split; [done|]. split; [|done].
    apply not_elem_of_cons. by split. }
  destruct e as [|w| |]; cbn [phase_step]; [|by apply Hskip..].
  intros (l2 & l3 & -> & Hl2)%phase_run_Fetching_Settled.
  exists [], l2, l3. split; [done|]. split; [|done]. apply not_elem_of_nil.
Qed.

(** X8: the state of an instance has been set, and holds [v], exactly when
    the events so far are: no mount, then the mount, then only renders and
    repeated mounts, then a fulfilment with [v], then anything.  What is
    displayed is the value of the first settlement of the one fetch, and
    nothing delivered later replaces it. *)
Theorem guilds_state_provenance (evs : list event) (v : value) :
  updates (run evs initial) = 1 ∧ this_state (run evs initial) = {| guilds := v |}
  ↔ ∃ l1 l2 l3 : list event,
      evs = (l1 ++ Mount :: l2 ++ Resolve v :: l3)%list
      ∧ (Mount ∉ l1) ∧ Forall (λ e, e = Mount ∨ e = Render) l2.
Proof.
  pose proof (reachable_in_phase evs) as Hi. split.
  - intros [Hu Hs]. apply phase_run_Fresh_Settled.
    destruct (phase_run evs Fresh) as [| | |w].
    + destruct Hi as (_ & _ & _ & _ & Hu' & _). congruence.
    + destruct Hi as (_ & _ & _ & _ & Hu' & _). congruence.
    + destruct Hi as (_ & _ & _ & _ & Hu' & _). congruence.
    + destruct Hi as (_ & _ & Hs' & _). congruence.
  - intros (l1 & l2 & l3 & -> & Hl1 & Hl2).
    assert (Hph : phase_run (l1 ++ Mount :: l2 ++ Resolve v :: l3) Fresh
                  = Settled v).
    { rewrite phase_run_app. apply phase_run_Fresh in Hl1. rewrite Hl1.
      rewrite phase_run_cons. cbn [phase_step].
      rewrite phase_run_app, (phase_run_Fetching l2 Hl2).
      rewrite phase_run_cons. cbn [phase_step]. apply phase_run_Settled. }
    rewrite Hph in Hi. by destruct Hi as (_ & _ & ? & _ & ?).
Qed.

End GuildsFurther.
